(** * A shallow embedding of the trie of rjkweiss/trie-visualizer

    The source is the TypeScript module [trie/Trie.ts]: a class [TrieNode]
    (a [Map<string, TrieNode>] of children and an [isEndOfWord] flag) and a
    class [Trie] that owns a root node and offers [insert], [searchWord],
    [startsWith], [delete] and [getRoot].

    The nodes form a tree that is mutated in place; no node is ever shared
    between two parents, so in-place mutation is modelled by functional
    update along the path that the method walks. *)

From Stdlib Require Import NArith Ascii String.
From stdpp Require Import gmap list fin_maps.

Set Default Proof Using "Type".
#[local] Set Warnings "-register-all".

(** ** JavaScript strings

    A JavaScript string is a sequence of UTF-16 code units.  The bound
    [u < 65536] on a code unit is not needed by any result below, so a code
    unit is an [N] and a string a [list N]. *)

Abbreviation jsstring := (list N).

(** Leading (high) and trailing (low) surrogates. *)
Definition isHighSurrogate (u : N) : bool := (55296 <=? u)%N && (u <=? 56319)%N.
Definition isLowSurrogate (u : N) : bool := (56320 <=? u)%N && (u <=? 57343)%N.

(** [for (const char of word)] uses the string iterator of ECMAScript,
    which walks the string by code point: a leading surrogate directly
    followed by a trailing one is yielded as one two-unit string, every
    other code unit as a one-unit string. *)
Fixpoint codePoints (s : jsstring) : list jsstring :=
  match s with
  | [] => []
  | hi :: rest =>
      match rest with
      | lo :: rest' =>
          if isHighSurrogate hi && isLowSurrogate lo
          then [hi; lo] :: codePoints rest'
          else [hi] :: codePoints rest
      | [] => [[hi]]
      end
  end.

(** [word[index]] reads one code unit and yields it as a one-unit string;
    out of range it is [undefined]. *)
Definition charAt (word : jsstring) (index : nat) : option jsstring :=
  (λ u, [u]) <$> word !! index.

(** The keys that a walk by index looks up, one per code unit. *)
Definition codeUnits (s : jsstring) : list jsstring := (λ u, [u]) <$> s.

(** An ASCII literal as a JavaScript string. *)
Definition lit (s : string) : jsstring := N_of_ascii <$> list_ascii_of_string s.

(** ** Nodes

    The children of a node are a finite map: the keys that the node has
    and the child under each.  The order in which a JavaScript [Map] lists
    its keys is not part of the model; equality of nodes is equality of
    keys, children and flags. *)

Inductive TrieNode : Type :=
  mkNode { children : gmap jsstring TrieNode; isEndOfWord : bool }.

(** [new TrieNode()] *)
Definition newNode : TrieNode := mkNode ∅ false.

(** [Map.prototype.has] *)
Definition has (m : gmap jsstring TrieNode) (k : jsstring) : bool :=
  bool_decide (is_Some (m !! k)).

(** ** The trie *)

Module Trie.

Record t : Type := mk { root : TrieNode }.

(** [new Trie()] *)
Definition new : t := mk newNode.

(** The loop of [insert], started at [node] with the characters that are
    still to be consumed.  The result is [node] after the in-place
    updates of the loop and of the final assignment. *)
Fixpoint insertFrom (node : TrieNode) (chars : list jsstring) : TrieNode :=
  match chars with
  | [] => mkNode (children node) true
  | char :: rest =>
      let kids :=
        if has (children node) char then children node
        else <[char := newNode]> (children node) in
      let child := default newNode (kids !! char) in
      mkNode (<[char := insertFrom child rest]> kids) (isEndOfWord node)
  end.

Definition insert (tr : t) (word : jsstring) : t :=
  mk (insertFrom (root tr) (codePoints word)).

(** The loop of [searchWord]. *)
Fixpoint searchFrom (node : TrieNode) (chars : list jsstring) : bool :=
  match chars with
  | [] => isEndOfWord node
  | char :: rest =>
      if has (children node) char then
        match children node !! char with
        | Some child => searchFrom child rest
        | None => false
        end
      else false
  end.

Definition searchWord (tr : t) (word : jsstring) : bool :=
  searchFrom (root tr) (codePoints word).

(** The loop of [startsWith]. *)
Fixpoint prefixFrom (node : TrieNode) (chars : list jsstring) : bool :=
  match chars with
  | [] => true
  | char :: rest =>
      if has (children node) char then
        match children node !! char with
        | Some child => prefixFrom child rest
        | None => false
        end
      else false
  end.

Definition startsWith (tr : t) (prefix : jsstring) : bool :=
  prefixFrom (root tr) (codePoints prefix).

(** The recursive [helper] of [delete].  It returns the boolean of the
    source together with [node] as the call leaves it.  [fuel] bounds the
    recursion depth; [delete] supplies [length word + 1], which is never
    exhausted ([helper_fuel] below).  The test [!node] of the source
    cannot succeed: the helper is only called on the root and on a child
    that was checked just before. *)
Fixpoint helper (fuel : nat) (node : TrieNode) (word : jsstring) (index : nat)
  : bool * TrieNode :=
  match fuel with
  | O => (false, node)
  | S fuel' =>
      if decide (index = length word) then
        if negb (isEndOfWord node) then (false, node)
        else
          let node1 := mkNode (children node) false in
          (bool_decide (size (children node1) = 0), node1)
      else
        match charAt word index with
        | None => (false, node)
        | Some char =>
            match children node !! char with
            | None => (false, node)
            | Some childNode =>
                let '(shouldDeleteChild, childNode') :=
                  helper fuel' childNode word (S index) in
                let node1 :=
                  mkNode (<[char := childNode']> (children node))
                         (isEndOfWord node) in
                if shouldDeleteChild then
                  let node2 :=
                    mkNode (base.delete char (children node1))
                           (isEndOfWord node1) in
                  (bool_decide (size (children node2) = 0)
                     && negb (isEndOfWord node2), node2)
                else (false, node1)
            end
        end
  end.

Definition delete (tr : t) (word : jsstring) : bool * t :=
  let '(result, root') := helper (S (length word)) (root tr) word 0 in
  (result, mk root').

Definition getRoot (tr : t) : TrieNode := root tr.

End Trie.

(** ** Paths, membership and reachable states *)

(** The node at the end of a path of keys, if the path exists. *)
Fixpoint walk (node : TrieNode) (path : list jsstring) : option TrieNode :=
  match path with
  | [] => Some node
  | k :: rest =>
      match children node !! k with
      | Some child => walk child rest
      | None => None
      end
  end.

(** The number of nodes on the longest path down from [node]. *)
Fixpoint height (node : TrieNode) : nat :=
  S (map_fold (λ _ child acc, height child `max` acc) 0 (children node)).

(** A node is an end of word, or an ancestor of one. *)
Definition productive (node : TrieNode) : Prop :=
  ∃ q m, walk node q = Some m ∧ isEndOfWord m = true.

(** Every node of the subtree, its top included, is productive. *)
Definition good (node : TrieNode) : Prop :=
  ∀ p m, walk node p = Some m → productive m.

(** Every node strictly below [node] is productive. *)
Definition goodBelow (node : TrieNode) : Prop :=
  ∀ k c, children node !! k = Some c → good c.

(** Every path of the subtree is the code-point split of its own
    concatenation: the keys are those that [for ... of] produces. *)
Definition canonical (node : TrieNode) : Prop :=
  ∀ p m, walk node p = Some m → codePoints (concat p) = p.

(** The states of a [Trie] object: those that construction followed by
    calls of [insert] and [delete] can produce. *)
Inductive reachable : Trie.t → Prop :=
  | reachable_new : reachable Trie.new
  | reachable_insert tr word :
      reachable tr → reachable (Trie.insert tr word)
  | reachable_delete tr word :
      reachable tr → reachable (Trie.delete tr word).2.

(** [delete] as a structural recursion over the keys still to be looked
    up; [helper_fuel] shows that [helper] computes it. *)
Fixpoint prune (node : TrieNode) (keys : list jsstring) : bool * TrieNode :=
  match keys with
  | [] =>
      if isEndOfWord node
      then (bool_decide (size (children node) = 0), mkNode (children node) false)
      else (false, node)
  | k :: rest =>
      match children node !! k with
      | None => (false, node)
      | Some child =>
          let '(b, child') := prune child rest in
          if b then
            let kids := base.delete k (<[k := child']> (children node)) in
            (bool_decide (size kids = 0) && negb (isEndOfWord node),
             mkNode kids (isEndOfWord node))
          else (false, mkNode (<[k := child']> (children node)) (isEndOfWord node))
      end
  end.

(** The node on [path] with its flag cleared, everything else as it was. *)
Fixpoint clearAt (node : TrieNode) (path : list jsstring) : TrieNode :=
  match path with
  | [] => mkNode (children node) false
  | k :: rest =>
      match children node !! k with
      | Some child =>
          mkNode (<[k := clearAt child rest]> (children node)) (isEndOfWord node)
      | None => node
      end
  end.

(** [p] is a prefix of [w] in whole characters, the units in which the
    query loops consume a string. *)
Definition charPrefix (p w : jsstring) : Prop :=
  codePoints p `prefix_of` codePoints w.

(** [w] holds no surrogate pair: walking it by code point and walking it
    by index look up the same keys. *)
Definition pairFree (w : jsstring) : Prop := codePoints w = codeUnits w.

#[global] Instance pairFree_dec (w : jsstring) : Decision (pairFree w) :=
  decide (codePoints w = codeUnits w).

#[global] Instance charPrefix_dec (p w : jsstring) : Decision (charPrefix p w) :=
  decide (codePoints p `prefix_of` codePoints w).

(** Concrete words and tries used by the examples. *)
Definition grinning : jsstring := [55357; 56832]%N.

Definition gasGarlic : Trie.t :=
  Trie.insert (Trie.insert Trie.new (lit "gas")) (lit "garlic").

Definition catCar : Trie.t :=
  Trie.insert (Trie.insert Trie.new (lit "cat")) (lit "car").

(** A tree that no sequence of calls produces: the two halves of a
    surrogate pair as two nested one-unit keys. *)
Definition splitPairTrie : Trie.t :=
  Trie.mk (mkNode {[ [55357%N] := mkNode {[ [56832%N] := mkNode ∅ true ]} false ]}
                  false).

Definition grinningTrie : Trie.t := Trie.insert Trie.new grinning.

Definition grinningPrefixTrie : Trie.t :=
  Trie.insert (Trie.insert Trie.new grinning) (grinning ++ lit "a").

(** ** The visualizer component

    [components/Trie.tsx] keeps one [Trie] object and a set of the words
    that the user has added, next to the fields that drive the display.  A
    [Set<string>] is iterated in insertion order and is modelled by the
    list of its elements in that order. *)

Module Visualizer.

Inductive animation : Type := AnimInsert | AnimSearch | AnimDelete.

Record state : Type := mkState {
  trie : Trie.t;
  inputWord : jsstring;
  prefixInput : jsstring;
  searchInput : jsstring;
  deleteInput : jsstring;
  feedbackMessage : option jsstring;
  countNodes : Z;
  animatingPath : list jsstring;
  activePath : list jsstring;
  animationType : option animation;
  completeWords : list jsstring;
  prefixMatches : list jsstring
}.

(** The loop [allWords.forEach(word => { trie.delete(word); })]: the
    results of the calls are dropped. *)
Definition deleteAll (tr : Trie.t) (allWords : list jsstring) : Trie.t :=
  foldl (λ tr word, (Trie.delete tr word).2) tr allWords.

(** [handleReset]: the state that the next rendering sees. *)
Definition handleReset (s : state) : state :=
  let allWords := completeWords s in
  {| trie := deleteAll (trie s) allWords;
     inputWord := [];
     prefixInput := prefixInput s;
     searchInput := searchInput s;
     deleteInput := deleteInput s;
     feedbackMessage := Some (lit "Trie has been reset!");
     countNodes := 0;
     animatingPath := [];
     activePath := [];
     animationType := animationType s;
     completeWords := [];
     prefixMatches := prefixMatches s |}.

(** The loop of [buildPathForward]: one identifier per character, each
    the previous one followed by a dash and the character. *)
Fixpoint pathFrom (currentPath : jsstring) (chars : list jsstring)
  : list jsstring :=
  match chars with
  | [] => []
  | char :: rest =>
      let currentPath := currentPath ++ lit "-" ++ char in
      currentPath :: pathFrom currentPath rest
  end.

Section BuildPath.

(** [String.prototype.toLowerCase] depends on the Unicode case tables and
    is left abstract. *)
Variable toLowerCase : jsstring → jsstring.

Definition buildPathForward (word : jsstring) : list jsstring :=
  lit "root" :: pathFrom (lit "root") (codePoints (toLowerCase word)).

End BuildPath.

End Visualizer.

(** A state of the component whose word set lists the words of its trie. *)
Definition gasGarlicState : Visualizer.state :=
  {| Visualizer.trie := gasGarlic;
     Visualizer.inputWord := lit "gas";
     Visualizer.prefixInput := [];
     Visualizer.searchInput := [];
     Visualizer.deleteInput := [];
     Visualizer.feedbackMessage := None;
     Visualizer.countNodes := 2;
     Visualizer.animatingPath := [];
     Visualizer.activePath := [];
     Visualizer.animationType := None;
     Visualizer.completeWords := [lit "gas"; lit "garlic"];
     Visualizer.prefixMatches := [] |}.

(** ** The helper of [delete] never runs out of fuel *)

Lemma charAt_drop word index u rest :
  drop index word = u :: rest →
  charAt word index = Some [u] ∧ drop (S index) word = rest ∧ index ≠ length word.
Proof.
  intros Hd. unfold charAt.
  assert (word !! index = Some u) as ->.
  { rewrite <- (Nat.add_0_r index), <- lookup_drop, Hd. done. }
  split; [done|]. split.
  - replace (S index) with (index + 1) by lia. by rewrite <- drop_drop, Hd.
  - intros ->. rewrite drop_all in Hd. done.
Qed.

Lemma helper_fuel fuel node word index :
  index ≤ length word → length word - index < fuel →
  Trie.helper fuel node word index = prune node (codeUnits (drop index word)).
Proof.
  revert node index. induction fuel as [|fuel IH]; intros node index Hle Hlt; [lia|].
  simpl. destruct (drop index word) as [|u rest] eqn:Hd.
  - assert (index = length word) as Hi.
    { apply (f_equal length) in Hd. rewrite length_drop in Hd. simpl in Hd. lia. }
    rewrite decide_True by done. simpl. by destruct (isEndOfWord node).
  - destruct (charAt_drop _ _ _ _ Hd) as (Hc & Hr & Hne).
    rewrite decide_False by done. rewrite Hc. simpl.
    destruct (children node !! [u]) as [child|]; [|done].
    rewrite IH by lia. rewrite Hr. done.
Qed.

Lemma delete_prune tr word :
  Trie.delete tr word =
  ((prune (Trie.root tr) (codeUnits word)).1,
   Trie.mk (prune (Trie.root tr) (codeUnits word)).2).
Proof.
  unfold Trie.delete. rewrite helper_fuel by (simpl; lia).
  rewrite drop_0. by destruct (prune _ _).
Qed.

(** ** The query loops in terms of paths *)

Lemma searchFrom_cons node k rest :
  Trie.searchFrom node (k :: rest) =
  match children node !! k with
  | Some child => Trie.searchFrom child rest
  | None => false
  end.
Proof.
  simpl. unfold has. destruct (children node !! k) as [child|].
  - rewrite bool_decide_eq_true_2; [done | by eexists].
  - by case_bool_decide.
Qed.

Lemma prefixFrom_cons node k rest :
  Trie.prefixFrom node (k :: rest) =
  match children node !! k with
  | Some child => Trie.prefixFrom child rest
  | None => false
  end.
Proof.
  simpl. unfold has. destruct (children node !! k) as [child|].
  - rewrite bool_decide_eq_true_2; [done | by eexists].
  - by case_bool_decide.
Qed.

Lemma searchFrom_walk node p :
  Trie.searchFrom node p =
  match walk node p with Some m => isEndOfWord m | None => false end.
Proof.
  revert node. induction p as [|k p IH]; intros node; [done|].
  rewrite searchFrom_cons. simpl. destruct (children node !! k); auto.
Qed.

Lemma prefixFrom_walk node p :
  Trie.prefixFrom node p = bool_decide (is_Some (walk node p)).
Proof.
  revert node. induction p as [|k p IH]; intros node.
  - symmetry. apply bool_decide_eq_true_2. by eexists.
  - rewrite prefixFrom_cons. cbn [walk]. destruct (children node !! k); [auto|].
    symmetry. apply bool_decide_eq_false_2. by intros [? ?].
Qed.

Lemma walk_app node p q :
  walk node (p ++ q) = walk node p ≫= λ m, walk m q.
Proof.
  revert node. induction p as [|k p IH]; intros node; [done|].
  simpl. destruct (children node !! k); auto.
Qed.

Lemma searchFrom_leaf node p :
  children node = ∅ → isEndOfWord node = false → Trie.searchFrom node p = false.
Proof.
  intros Hc He. destruct p as [|k p]; [done|].
  rewrite searchFrom_cons, Hc, lookup_empty. done.
Qed.

Lemma node_eta node : mkNode (children node) (isEndOfWord node) = node.
Proof. by destruct node. Qed.

(** ** What [prune] does to a subtree *)

(** A node is reported for unlinking only when it has become a leaf that
    ends no word. *)
Lemma prune_true node keys node' :
  prune node keys = (true, node') →
  children node' = ∅ ∧ isEndOfWord node' = false.
Proof.
  destruct keys as [|k rest]; simpl.
  - destruct (isEndOfWord node); [|done].
    intros [= Hb <-]. apply bool_decide_eq_true in Hb. simpl.
    split; [by apply map_size_empty_inv | done].
  - destruct (children node !! k) as [child|]; [|done].
    destruct (prune child rest) as [[] child']; [|done].
    intros [= Hb <-]. apply andb_true_iff in Hb as [Hs He].
    apply bool_decide_eq_true in Hs. simpl.
    split; [by apply map_size_empty_inv | by apply negb_true_iff].
Qed.

(** The word on the pruned path is no longer found. *)
Lemma prune_search_same node keys :
  Trie.searchFrom (prune node keys).2 keys = false.
Proof.
  revert node. induction keys as [|k rest IH]; intros node.
  - simpl. by destruct (isEndOfWord node) eqn:He.
  - rewrite searchFrom_cons. simpl.
    destruct (children node !! k) as [child|] eqn:Hk; simpl; [|by rewrite Hk].
    specialize (IH child). destruct (prune child rest) as [[] child']; simpl in *.
    + by rewrite lookup_delete_eq.
    + by rewrite lookup_insert_eq.
Qed.

(** Every other path is found exactly when it was found before. *)
Lemma prune_search_other node keys keys' :
  keys' ≠ keys →
  Trie.searchFrom (prune node keys).2 keys' = Trie.searchFrom node keys'.
Proof.
  revert node keys'. induction keys as [|k rest IH]; intros node keys' Hne.
  - destruct keys' as [|k' rest']; [done|].
    rewrite !searchFrom_cons. simpl. by destruct (isEndOfWord node).
  - simpl. destruct (children node !! k) as [child|] eqn:Hk; [|done].
    destruct (prune child rest) as [b child'] eqn:Hp.
    destruct keys' as [|k' rest']; [by destruct b|].
    rewrite !searchFrom_cons.
    destruct (decide (k' = k)) as [->|Hkk].
    + assert (rest' ≠ rest) as Hr by congruence.
      specialize (IH child rest' Hr). rewrite Hp in IH. simpl in IH.
      rewrite Hk, <- IH. destruct b; simpl.
      * rewrite lookup_delete_eq.
        destruct (prune_true _ _ _ Hp) as [Hc He].
        by rewrite searchFrom_leaf.
      * by rewrite lookup_insert_eq.
    + destruct b; simpl.
      * by rewrite lookup_delete_ne, lookup_insert_ne.
      * by rewrite lookup_insert_ne.
Qed.

(** A path that does not lead to the end of a word is left alone. *)
Lemma prune_absent node keys :
  Trie.searchFrom node keys = false → prune node keys = (false, node).
Proof.
  revert node. induction keys as [|k rest IH]; intros node.
  - simpl. by intros ->.
  - rewrite searchFrom_cons. simpl.
    destruct (children node !! k) as [child|] eqn:Hk; [|done].
    intros Hs. rewrite (IH _ Hs), insert_id by done. by rewrite node_eta.
Qed.

(** A word whose last node keeps a child only loses its flag. *)
Lemma prune_inner node keys m :
  walk node keys = Some m → isEndOfWord m = true → children m ≠ ∅ →
  prune node keys = (false, clearAt node keys).
Proof.
  revert node. induction keys as [|k rest IH]; intros node; simpl.
  - intros [= <-] -> Hc. f_equal.
    apply bool_decide_eq_false_2. by rewrite map_size_empty_iff.
  - destruct (children node !! k) as [child|] eqn:Hk; [|done].
    intros Hw He Hc. by rewrite (IH _ Hw He Hc).
Qed.

(** ** What [insert] does to a subtree *)

Lemma insertFrom_cons node c rest :
  Trie.insertFrom node (c :: rest) =
  mkNode (<[c := Trie.insertFrom (default newNode (children node !! c)) rest]>
            (children node))
         (isEndOfWord node).
Proof.
  simpl. unfold has. case_bool_decide as Hc; [done|].
  apply eq_None_not_Some in Hc. by rewrite Hc, lookup_insert_eq, insert_insert_eq.
Qed.

Lemma insertFrom_search node chars :
  Trie.searchFrom (Trie.insertFrom node chars) chars = true.
Proof.
  revert node. induction chars as [|c rest IH]; intros node; [done|].
  rewrite insertFrom_cons, searchFrom_cons. simpl.
  by rewrite lookup_insert_eq.
Qed.

Lemma insertFrom_prefix node chars p :
  p `prefix_of` chars → Trie.prefixFrom (Trie.insertFrom node chars) p = true.
Proof.
  revert node chars. induction p as [|k p IH]; intros node chars Hp; [done|].
  destruct Hp as [q ->]. rewrite <- app_comm_cons.
  rewrite insertFrom_cons, prefixFrom_cons. simpl.
  rewrite lookup_insert_eq. apply IH. by exists q.
Qed.

Lemma insertFrom_idem node chars :
  Trie.insertFrom (Trie.insertFrom node chars) chars = Trie.insertFrom node chars.
Proof.
  revert node. induction chars as [|c rest IH]; intros node; [done|].
  rewrite !insertFrom_cons. cbn [children isEndOfWord default].
  rewrite lookup_insert_eq. cbn [default]. unfold id. by rewrite IH, insert_insert_eq.
Qed.

(** ** No dangling node: the invariant and its preservation *)

Lemma good_productive node : good node → productive node.
Proof. intros Hg. by apply (Hg []). Qed.

Lemma good_child node k c : good node → children node !! k = Some c → good c.
Proof. intros Hg Hk p m Hw. apply (Hg (k :: p)). simpl. by rewrite Hk. Qed.

Lemma good_intro node : productive node → goodBelow node → good node.
Proof.
  intros Hp Hb [|k p] m; simpl.
  - by intros [= <-].
  - destruct (children node !! k) as [c|] eqn:Hk; [|done].
    intros Hw. by apply (Hb k c Hk p).
Qed.

Lemma productive_step node k c :
  children node !! k = Some c → productive c → productive node.
Proof.
  intros Hk (q & m & Hw & He). exists (k :: q), m. simpl. by rewrite Hk.
Qed.

Lemma goodBelow_newNode : goodBelow newNode.
Proof. intros k c. simpl. by rewrite lookup_empty. Qed.

Lemma insertFrom_good node chars :
  goodBelow node → good (Trie.insertFrom node chars).
Proof.
  revert node. induction chars as [|c rest IH]; intros node Hb.
  - apply good_intro; [|done]. by exists [], (Trie.insertFrom node []).
  - rewrite insertFrom_cons.
    set (child := default newNode (children node !! c)).
    assert (good (Trie.insertFrom child rest)) as Hins.
    { apply IH. subst child. destruct (children node !! c) as [c0|] eqn:Hc; simpl.
      - intros k c1 Hk. eapply good_child; [|done]. by eapply Hb.
      - apply goodBelow_newNode. }
    apply good_intro.
    + eapply (productive_step _ c); [apply lookup_insert_eq|].
      by apply good_productive.
    + intros k c1. simpl. rewrite lookup_insert.
      case_decide; [by intros [= <-] | apply Hb].
Qed.

Lemma prune_good node keys :
  good node → (prune node keys).1 = false → good (prune node keys).2.
Proof.
  revert node. induction keys as [|k rest IH]; intros node Hg; simpl.
  - destruct (isEndOfWord node); [|done]. simpl. intros Hs.
    apply bool_decide_eq_false in Hs. apply map_size_non_empty_iff in Hs.
    destruct (map_choose _ Hs) as (k & c & Hk).
    apply good_intro.
    + apply (productive_step _ k c); [done|].
      apply good_productive. by eapply good_child.
    + intros k' c' Hk'. by eapply good_child.
  - destruct (children node !! k) as [child|] eqn:Hk; [|done].
    specialize (IH child (good_child _ _ _ Hg Hk)).
    destruct (prune child rest) as [[] child']; simpl in *.
    + rewrite delete_insert_eq. intros Hb. apply good_intro.
      * apply andb_false_iff in Hb as [Hs|He].
        -- apply bool_decide_eq_false in Hs. apply map_size_non_empty_iff in Hs.
           destruct (map_choose _ Hs) as (k2 & c2 & Hk2).
           apply (productive_step _ k2 c2); [done|].
           apply good_productive. apply lookup_delete_Some in Hk2 as [_ Hk2].
           by eapply good_child.
        -- apply negb_false_iff in He. by exists [], (mkNode (base.delete k (children node)) (isEndOfWord node)).
      * intros k2 c2. simpl. intros [_ Hk2]%lookup_delete_Some.
        by eapply good_child.
    + intros _. specialize (IH eq_refl). apply good_intro.
      * apply (productive_step _ k child'); [apply lookup_insert_eq|].
        by apply good_productive.
      * intros k2 c2. simpl. rewrite lookup_insert.
        case_decide; [by intros [= <-] | intros Hk2; by eapply good_child].
Qed.

Lemma prune_goodBelow node keys :
  goodBelow node → goodBelow (prune node keys).2.
Proof.
  intros Hb. destruct keys as [|k rest]; simpl.
  - by destruct (isEndOfWord node).
  - destruct (children node !! k) as [child|] eqn:Hk; [|done].
    pose proof (prune_good child rest (Hb _ _ Hk)) as Hc.
    destruct (prune child rest) as [[] child']; simpl in *.
    + rewrite delete_insert_eq. intros k2 c2. simpl.
      intros [_ Hk2]%lookup_delete_Some. by eapply Hb.
    + intros k2 c2. simpl. rewrite lookup_insert.
      case_decide; [intros [= <-]; by apply Hc | apply Hb].
Qed.

Lemma reachable_goodBelow tr : reachable tr → goodBelow (Trie.root tr).
Proof.
  induction 1 as [|tr word _ IH|tr word _ IH].
  - apply goodBelow_newNode.
  - intros k c Hk. eapply good_child; [|done]. by apply insertFrom_good.
  - rewrite delete_prune. by apply prune_goodBelow.
Qed.

(** ** Code points *)

Lemma jsstring_pair_ind (P : jsstring → Prop) :
  P [] → (∀ u, P [u]) →
  (∀ hi lo rest, P rest → P (lo :: rest) → P (hi :: lo :: rest)) →
  ∀ s, P s.
Proof.
  intros Hnil Hone Hstep s.
  enough (P s ∧ ∀ u, P (u :: s)) by tauto.
  induction s as [|lo rest [IH1 IH2]]; [by split|].
  split; [apply IH2|]. intros hi. by apply Hstep.
Qed.

Lemma codePoints_cons2 hi lo rest :
  codePoints (hi :: lo :: rest) =
  if isHighSurrogate hi && isLowSurrogate lo
  then [hi; lo] :: codePoints rest
  else [hi] :: codePoints (lo :: rest).
Proof. done. Qed.

Lemma concat_codePoints w : concat (codePoints w) = w.
Proof.
  induction w as [|u|hi lo rest IH1 IH2] using jsstring_pair_ind; [done..|].
  rewrite codePoints_cons2. destruct (isHighSurrogate hi && isLowSurrogate lo).
  - cbn [concat app]. by rewrite IH1.
  - cbn [concat app]. by rewrite IH2.
Qed.

Lemma concat_codeUnits w : concat (codeUnits w) = w.
Proof. induction w as [|u w IH]; [done|]. simpl. by rewrite IH. Qed.

Lemma codePoints_head u s c cs :
  codePoints (u :: s) = c :: cs → ∃ c', c = u :: c'.
Proof.
  destruct s as [|lo rest]; [|rewrite codePoints_cons2].
  - intros [= <- _]. by eexists.
  - destruct (isHighSurrogate u && isLowSurrogate lo); intros [= <- _]; by eexists.
Qed.

(** Cutting a code-point split after a whole character gives the split of
    what was kept. *)
Lemma codePoints_concat_prefix w p :
  p `prefix_of` codePoints w → codePoints (concat p) = p.
Proof.
  revert p.
  induction w as [|u|hi lo rest IH1 IH2] using jsstring_pair_ind; intros p.
  - intros ->%prefix_nil_inv. done.
  - destruct p as [|c p]; [done|]. cbn [codePoints].
    intros Hp. pose proof (prefix_cons_inv_1 _ _ _ _ Hp) as ->.
    apply prefix_cons_inv_2, prefix_nil_inv in Hp as ->. done.
  - destruct p as [|c p]; [done|]. rewrite codePoints_cons2.
    destruct (isHighSurrogate hi && isLowSurrogate lo) eqn:Hpair; intros Hp;
      pose proof (prefix_cons_inv_1 _ _ _ _ Hp) as ->;
      apply prefix_cons_inv_2 in Hp.
    + cbn [concat app]. by rewrite codePoints_cons2, Hpair, (IH1 p Hp).
    + specialize (IH2 p Hp). destruct p as [|c p]; [done|].
      destruct Hp as [q Hq]. rewrite <- app_comm_cons in Hq.
      destruct (codePoints_head _ _ _ _ Hq) as [c' ->].
      cbn [concat app] in *. by rewrite codePoints_cons2, Hpair, IH2.
Qed.

Lemma codePoints_codeUnits v w : codePoints v = codeUnits w → v = w.
Proof.
  intros H. by rewrite <- (concat_codePoints v), H, concat_codeUnits.
Qed.

(** ** Canonical keys: the invariant and its preservation *)

(** The walk continues below a child that the operation did not touch. *)
Local Ltac untouched_child :=
  match goal with
  | |- context [children ?n !! ?k] =>
      destruct (children n !! k); [by eexists | done]
  end.

Lemma insertFrom_walk node chars p m :
  walk (Trie.insertFrom node chars) p = Some m →
  is_Some (walk node p) ∨ p `prefix_of` chars.
Proof.
  revert node p. induction chars as [|c rest IH]; intros node p.
  - destruct p as [|k p]; [left; by eexists|]. simpl. intros Hw. left.
    untouched_child.
  - rewrite insertFrom_cons. destruct p as [|k p]; [left; by eexists|].
    simpl. rewrite lookup_insert. case_decide as Hk.
    + subst k. intros Hw. apply IH in Hw as [Hw|Hw].
      * destruct (children node !! c) as [c0|]; simpl in Hw; [by left|].
        right. destruct p as [|k p]; [by apply prefix_cons, prefix_nil|].
        simpl in Hw. rewrite lookup_empty in Hw. by destruct Hw.
      * right. by apply prefix_cons.
    + intros Hw. left. untouched_child.
Qed.

Lemma prune_walk node keys p m :
  walk (prune node keys).2 p = Some m → is_Some (walk node p).
Proof.
  revert node p. induction keys as [|k rest IH]; intros node p.
  - simpl. destruct (isEndOfWord node); [|by eexists].
    destruct p as [|k p]; simpl; [by eexists | untouched_child].
  - simpl. destruct (children node !! k) as [child|] eqn:Hk; [|by eexists].
    specialize (IH child). destruct (prune child rest) as [[] child']; simpl in *.
    + destruct p as [|k2 p]; [by eexists|]. simpl.
      rewrite delete_insert_eq, lookup_delete. case_decide; [done|].
      untouched_child.
    + destruct p as [|k2 p]; [by eexists|]. simpl.
      rewrite lookup_insert. case_decide as Hkk.
      * subst k2. rewrite Hk. apply IH.
      * untouched_child.
Qed.

Lemma reachable_canonical tr : reachable tr → canonical (Trie.root tr).
Proof.
  induction 1 as [|tr word _ IH|tr word _ IH]; intros p m Hw.
  - destruct p as [|k p]; [done|]. simpl in Hw. by rewrite lookup_empty in Hw.
  - apply insertFrom_walk in Hw as [[m' Hw]|Hw].
    + by eapply IH.
    + by eapply codePoints_concat_prefix.
  - rewrite delete_prune in Hw. apply prune_walk in Hw as [m' Hw]. by eapply IH.
Qed.

(** In a trie with canonical keys the walk by index finds a word only if
    the walk by code point finds the same word. *)
Lemma canonical_search_units node w :
  canonical node →
  Trie.searchFrom node (codePoints w) = false →
  Trie.searchFrom node (codeUnits w) = false.
Proof.
  intros Hc Hs. rewrite searchFrom_walk.
  destruct (walk node (codeUnits w)) as [m|] eqn:Hw; [|done].
  pose proof (Hc _ _ Hw) as Heq. rewrite concat_codeUnits in Heq.
  by rewrite Heq, searchFrom_walk, Hw in Hs.
Qed.

(** The boolean of [prune] is the unlink signal of the top node: it is
    true exactly when the word was found and the node is left an empty
    leaf that ends no word. *)
Lemma prune_result node keys :
  (prune node keys).1 = true ↔
  Trie.searchFrom node keys = true ∧
  children (prune node keys).2 = ∅ ∧ isEndOfWord (prune node keys).2 = false.
Proof.
  split.
  - intros Hb. destruct (prune node keys) as [b node'] eqn:Hp. simpl in *. subst b.
    split; [|by eapply prune_true].
    destruct (Trie.searchFrom node keys) eqn:Hs; [done|].
    by rewrite (prune_absent _ _ Hs) in Hp.
  - intros (Hs & Hc & He). destruct keys as [|k rest].
    + simpl in *. rewrite Hs in *. simpl in *.
      apply bool_decide_eq_true_2. by rewrite Hc.
    + rewrite searchFrom_cons in Hs. simpl in Hc, He |- *.
      destruct (children node !! k) as [child|] eqn:Hk; [|done].
      destruct (prune child rest) as [[] child']; simpl in *.
      * apply andb_true_iff. split; [|by rewrite He].
        apply bool_decide_eq_true_2. by rewrite Hc.
      * apply (f_equal (.!! k)) in Hc. by rewrite lookup_insert_eq, lookup_empty in Hc.
Qed.

(** ** [delete] at the level of the trie *)

(** The boolean that [delete] returns, in every state. *)
Lemma delete_result tr w :
  (Trie.delete tr w).1 = true ↔
  Trie.searchFrom (Trie.root tr) (codeUnits w) = true ∧
  children (Trie.root (Trie.delete tr w).2) = ∅ ∧
  isEndOfWord (Trie.root (Trie.delete tr w).2) = false.
Proof. rewrite delete_prune. apply prune_result. Qed.

(** Every word but the argument keeps its membership, in every state. *)
Lemma delete_search_other tr w v :
  v ≠ w → Trie.searchWord (Trie.delete tr w).2 v = Trie.searchWord tr v.
Proof.
  intros Hne. rewrite delete_prune. unfold Trie.searchWord. simpl.
  apply prune_search_other. intros H. by apply codePoints_codeUnits in H.
Qed.

(** A word without surrogate pairs is gone after its deletion. *)
Lemma delete_search_same tr w :
  pairFree w → Trie.searchWord (Trie.delete tr w).2 w = false.
Proof.
  intros Hw. rewrite delete_prune. unfold Trie.searchWord. simpl.
  rewrite Hw. apply prune_search_same.
Qed.

(** A word without surrogate pairs that is not a member is left alone, in
    every state. *)
Lemma delete_absent_pairFree tr w :
  pairFree w → Trie.searchWord tr w = false → Trie.delete tr w = (false, tr).
Proof.
  intros Hw Hs. unfold Trie.searchWord in Hs. rewrite Hw in Hs.
  rewrite delete_prune, (prune_absent _ _ Hs). by destruct tr.
Qed.

(** A word with a surrogate pair keeps its membership: [delete] looks up
    other keys than [insert] created. *)
Lemma delete_search_pair tr w :
  ¬ pairFree w → Trie.searchWord (Trie.delete tr w).2 w = Trie.searchWord tr w.
Proof.
  intros Hw. rewrite delete_prune. unfold Trie.searchWord. simpl.
  by apply prune_search_other.
Qed.

(** Deleting a word without surrogate pairs whose last node has a child
    clears the flag of that node and nothing else. *)
Lemma delete_inner tr w m :
  pairFree w →
  walk (Trie.root tr) (codePoints w) = Some m →
  isEndOfWord m = true → children m ≠ ∅ →
  Trie.delete tr w = (false, Trie.mk (clearAt (Trie.root tr) (codePoints w))).
Proof.
  intros Hw Hm He Hc. rewrite delete_prune, <- Hw.
  by rewrite (prune_inner _ _ _ Hm He Hc).
Qed.

(** A member word that is a strict prefix, in whole characters, of another
    member has a last node with a child. *)
Lemma strict_prefix_child tr w v m :
  charPrefix w v → codePoints w ≠ codePoints v →
  Trie.searchWord tr v = true →
  walk (Trie.root tr) (codePoints w) = Some m → children m ≠ ∅.
Proof.
  intros [q Hq] Hne Hv Hm Hc. unfold Trie.searchWord in Hv.
  rewrite searchFrom_walk, Hq, walk_app, Hm in Hv. simpl in Hv.
  destruct q as [|k q]; [by rewrite app_nil_r in Hq|].
  simpl in Hv. by rewrite Hc, lookup_empty in Hv.
Qed.

Lemma delete_strict_prefix tr w v :
  pairFree w → charPrefix w v → codePoints w ≠ codePoints v →
  Trie.searchWord tr w = true → Trie.searchWord tr v = true →
  Trie.delete tr w = (false, Trie.mk (clearAt (Trie.root tr) (codePoints w))).
Proof.
  intros Hw Hp Hne Hsw Hsv. unfold Trie.searchWord in Hsw.
  rewrite searchFrom_walk in Hsw.
  destruct (walk (Trie.root tr) (codePoints w)) as [m|] eqn:Hm; [|done].
  eapply delete_inner; eauto using strict_prefix_child.
Qed.

Lemma reachable_gasGarlic : reachable gasGarlic.
Proof. unfold gasGarlic. do 2 apply reachable_insert. apply reachable_new. Defined.

(** ** The claims of the specification *)

(** C1 (found to fail on the code).  The claim: [delete w] returns true
    exactly when [w] was a member and has been removed.  On the trie that
    holds "gas" and "garlic" the word "garlic" is a member, [delete]
    removes it, and yet the call returns false: the value returned is the
    unlink signal that [helper] computes for the root. *)
Theorem delete_member_reports_false :
  Trie.searchWord gasGarlic (lit "garlic") = true ∧
  (Trie.delete gasGarlic (lit "garlic")).1 = false ∧
  Trie.searchWord (Trie.delete gasGarlic (lit "garlic")).2 (lit "garlic") = false.
Proof. vm_compute. done. Qed.

(** C2 (found to fail on the code).  The claim: [insert w] followed by
    [delete w] returns true and then [searchWord w] is false.  Starting
    from the trie that holds "a", inserting "b" and deleting it again
    returns false, although "b" is gone afterwards. *)
Theorem insert_delete_reports_false :
  let tr := Trie.insert (Trie.insert Trie.new (lit "a")) (lit "b") in
  (Trie.delete tr (lit "b")).1 = false ∧
  Trie.searchWord (Trie.delete tr (lit "b")).2 (lit "b") = false.
Proof. vm_compute. done. Qed.

(** C3 (found to fail on the code).  The end-to-end example of the
    specification, evaluated: every step is as stated except that
    [delete "garlic"] returns false where the claim says true. *)
Theorem gas_garlic_scenario :
  Trie.startsWith gasGarlic (lit "ga") = true ∧
  Trie.searchWord gasGarlic (lit "ga") = false ∧
  (Trie.delete gasGarlic (lit "garlic")).1 = false ∧
  Trie.searchWord (Trie.delete gasGarlic (lit "garlic")).2 (lit "gas") = true ∧
  Trie.startsWith (Trie.delete gasGarlic (lit "garlic")).2 (lit "gar") = false.
Proof. vm_compute. done. Qed.

(** C4.  In every state and for every word, if [delete w] returns true
    then afterwards the root has no children and is not an end of word, so
    the trie holds no word at all. *)
Theorem delete_true_leaves_empty tr w :
  (Trie.delete tr w).1 = true →
  size (children (Trie.getRoot (Trie.delete tr w).2)) = 0 ∧
  isEndOfWord (Trie.getRoot (Trie.delete tr w).2) = false ∧
  ∀ v, Trie.searchWord (Trie.delete tr w).2 v = false.
Proof.
  rewrite delete_prune. simpl. intros Hb.
  destruct (prune (Trie.root tr) (codeUnits w)) as [b node'] eqn:Hp.
  simpl in *. subst b. destruct (prune_true _ _ _ Hp) as [Hc He].
  unfold Trie.getRoot. simpl. split; [by rewrite Hc|]. split; [done|].
  intros v. by apply searchFrom_leaf.
Qed.

Lemma delete_true_leaves_empty_witness :
  (Trie.delete (Trie.insert Trie.new (lit "a")) (lit "a")).1 = true ∧
  size (children (Trie.getRoot
    (Trie.delete (Trie.insert Trie.new (lit "a")) (lit "a")).2)) = 0.
Proof.
  split; [vm_compute; reflexivity|].
  apply (delete_true_leaves_empty (Trie.insert Trie.new (lit "a")) (lit "a")).
  vm_compute; reflexivity.
Defined.

(** C5 (found to fail on the code).  The claim: after [delete w] the word
    [w] is not found, whatever the call returned.  A word that holds a
    surrogate pair is stored by [insert] under one two-unit key, while
    [delete] looks it up one code unit at a time, finds no path and leaves
    the trie as it was: the word is still found. *)
Theorem delete_keeps_surrogate_pair_word :
  Trie.searchWord grinningTrie grinning = true ∧
  Trie.delete grinningTrie grinning = (false, grinningTrie) ∧
  Trie.searchWord (Trie.delete grinningTrie grinning).2 grinning = true.
Proof. vm_compute. done. Qed.

(** C6.  In every state that construction, [insert] and [delete] can
    produce, deleting a word that is not a member returns false and leaves
    the whole trie as it was. *)
Theorem delete_absent_unchanged tr w :
  reachable tr → Trie.searchWord tr w = false →
  Trie.delete tr w = (false, tr).
Proof.
  intros Hr Hs. rewrite delete_prune.
  rewrite (prune_absent (Trie.root tr) (codeUnits w)); [by destruct tr|].
  by apply canonical_search_units, Hs; apply reachable_canonical.
Qed.

Lemma delete_absent_unchanged_witness :
  Trie.delete gasGarlic (lit "xyz") = (false, gasGarlic).
Proof.
  apply (delete_absent_unchanged gasGarlic (lit "xyz") reachable_gasGarlic).
  vm_compute; reflexivity.
Defined.

(** Reachability cannot be dropped from C6: on a tree whose keys split a
    surrogate pair, [delete] finds and removes a path that [searchWord]
    does not see. *)
Example delete_absent_needs_reachable :
  Trie.searchWord splitPairTrie grinning = false ∧
  Trie.delete splitPairTrie grinning = (true, Trie.new).
Proof. vm_compute. done. Qed.

(** C7 (found to fail on the code).  The claim: deleting a word that is a
    strict prefix of another member clears the flag of its last node and
    removes nothing.  When the word holds a surrogate pair the flag is not
    cleared: the trie is returned untouched and the word is still found. *)
Theorem delete_prefix_keeps_surrogate_pair_word :
  Trie.searchWord grinningPrefixTrie grinning = true ∧
  Trie.searchWord grinningPrefixTrie (grinning ++ lit "a") = true ∧
  Trie.delete grinningPrefixTrie grinning = (false, grinningPrefixTrie) ∧
  Trie.searchWord (Trie.delete grinningPrefixTrie grinning).2 grinning = true.
Proof. vm_compute. done. Qed.

(** The example that C7 gives holds as stated. *)
Example cat_car_scenario :
  Trie.searchWord (Trie.delete catCar (lit "cat")).2 (lit "car") = true ∧
  Trie.startsWith (Trie.delete catCar (lit "cat")).2 (lit "ca") = true ∧
  Trie.searchWord (Trie.delete catCar (lit "cat")).2 (lit "cat") = false.
Proof. vm_compute. done. Qed.

(** C8.  In every state reachable from construction by calls of [insert]
    and [delete] the root is there, and every node below the root, found
    at the end of its path of keys, is an end of word or an ancestor of
    one. *)
Theorem reachable_no_dangling tr :
  reachable tr →
  walk (Trie.getRoot tr) [] = Some (Trie.getRoot tr) ∧
  ∀ p m, p ≠ [] → walk (Trie.getRoot tr) p = Some m → productive m.
Proof.
  intros Hr. split; [done|]. intros [|k p] m Hne; [done|]. simpl.
  destruct (children (Trie.getRoot tr) !! k) as [c|] eqn:Hk; [|done].
  intros Hw. by apply (reachable_goodBelow tr Hr k c Hk p).
Qed.

Lemma reachable_no_dangling_witness :
  match walk (Trie.getRoot gasGarlic) [lit "g"; lit "a"; lit "r"] with
  | Some m => productive m
  | None => True
  end.
Proof.
  destruct (walk (Trie.getRoot gasGarlic) [lit "g"; lit "a"; lit "r"])
    as [m|] eqn:Hw; [|exact I].
  apply (proj2 (reachable_no_dangling gasGarlic reachable_gasGarlic)
           [lit "g"; lit "a"; lit "r"] m); [discriminate | exact Hw].
Defined.

(** A prefix in whole characters is a prefix of the string. *)
Lemma charPrefix_prefix p w : charPrefix p w → p `prefix_of` w.
Proof.
  intros [q Hq]. exists (concat q).
  by rewrite <- (concat_codePoints w), Hq, concat_app, concat_codePoints.
Qed.

(** C9 as the specification states it does not hold: a prefix of the
    string that ends between the two halves of a surrogate pair is a
    non-empty prefix of the word, and [startsWith] does not accept it
    after the word was inserted, because both loops consume the string by
    code point. *)
Lemma insert_prefix_inside_pair_not_found :
  ¬ (∀ tr w,
       Trie.searchWord (Trie.insert tr w) w = true ∧
       ∀ p, p ≠ [] → p `prefix_of` w →
            Trie.startsWith (Trie.insert tr w) p = true).
Proof.
  intros H. destruct (H Trie.new grinning) as [_ Hp].
  specialize (Hp [55357%N]). vm_compute in Hp.
  assert (false = true) as Hf; [|discriminate Hf].
  apply Hp; [discriminate|]. by exists [56832%N].
Qed.

(** C9, amended.  In every state and for every word [w], the empty word
    included, [insert w] yields a trie in which [searchWord w] is true and
    [startsWith p] is true for every non-empty prefix [p] of [w] that ends
    on a character boundary, that is, a prefix in whole code points;
    inserting the empty word marks the root. *)
Theorem insert_then_found tr w :
  Trie.searchWord (Trie.insert tr w) w = true ∧
  (∀ p, p ≠ [] → charPrefix p w → Trie.startsWith (Trie.insert tr w) p = true) ∧
  isEndOfWord (Trie.getRoot (Trie.insert tr [])) = true.
Proof.
  split; [apply insertFrom_search|]. split; [|done].
  intros p _ Hp. by apply insertFrom_prefix.
Qed.

Lemma insert_then_found_witness :
  Trie.startsWith (Trie.insert Trie.new (lit "gas")) (lit "ga") = true.
Proof.
  apply (proj1 (proj2 (insert_then_found Trie.new (lit "gas"))) (lit "ga")).
  - discriminate.
  - exists [lit "s"]. vm_compute; reflexivity.
Defined.

(** C10.  In every state and for every word [w], a second [insert w]
    right after the first leaves the trie identical: [searchWord w] is
    still true and on every path the children mapping has the size it
    had. *)
Theorem insert_twice_same tr w :
  Trie.insert (Trie.insert tr w) w = Trie.insert tr w ∧
  Trie.searchWord (Trie.insert (Trie.insert tr w) w) w = true ∧
  ∀ p, (λ m, size (children m)) <$>
         walk (Trie.getRoot (Trie.insert (Trie.insert tr w) w)) p =
       (λ m, size (children m)) <$> walk (Trie.getRoot (Trie.insert tr w)) p.
Proof.
  assert (Trie.insert (Trie.insert tr w) w = Trie.insert tr w) as Heq.
  { unfold Trie.insert. simpl. by rewrite insertFrom_idem. }
  rewrite Heq. split; [done|]. split; [apply insertFrom_search | done].
Qed.

(** ** Further properties of the queries and of [insert] *)

Lemma codePoints_inj v w : codePoints v = codePoints w → v = w.
Proof. intros H. by rewrite <- (concat_codePoints v), H, concat_codePoints. Qed.

Lemma codePoints_nil w : codePoints w = [] → w = [].
Proof. intros H. by apply (codePoints_inj w []). Qed.

Lemma prefixFrom_newNode p :
  Trie.prefixFrom newNode p = bool_decide (p = []).
Proof.
  destruct p as [|k p]; [done|]. by rewrite prefixFrom_cons.
Qed.

Lemma prefixFrom_leaf node p :
  children node = ∅ → p ≠ [] → Trie.prefixFrom node p = false.
Proof.
  intros Hc Hp. destruct p as [|k p]; [done|].
  by rewrite prefixFrom_cons, Hc, lookup_empty.
Qed.

Lemma prefix_cons_decide (c : jsstring) (r rest : list jsstring) :
  bool_decide (c :: r `prefix_of` c :: rest) = bool_decide (r `prefix_of` rest).
Proof.
  apply bool_decide_ext. split; [apply prefix_cons_inv_2 | apply prefix_cons].
Qed.

Lemma insertFrom_search_other node chars chars' :
  chars' ≠ chars →
  Trie.searchFrom (Trie.insertFrom node chars) chars' = Trie.searchFrom node chars'.
Proof.
  revert node chars'. induction chars as [|c rest IH]; intros node chars' Hne.
  - destruct chars' as [|k r]; [done|]. by rewrite !searchFrom_cons.
  - rewrite insertFrom_cons. destruct chars' as [|k r]; [done|].
    rewrite !searchFrom_cons. cbn [children]. rewrite lookup_insert.
    case_decide as Hk; [subst k|done].
    rewrite IH by congruence.
    destruct (children node !! c); [done|]. by apply searchFrom_leaf.
Qed.

Lemma insertFrom_prefix_exact node chars p :
  Trie.prefixFrom (Trie.insertFrom node chars) p =
  Trie.prefixFrom node p || bool_decide (p `prefix_of` chars).
Proof.
  revert node p. induction chars as [|c rest IH]; intros node p.
  - destruct p as [|k r]; [done|]. rewrite !prefixFrom_cons. cbn [Trie.insertFrom children].
    rewrite (bool_decide_eq_false_2 (k :: r `prefix_of` [])) by apply prefix_nil_not.
    by rewrite orb_false_r.
  - rewrite insertFrom_cons. destruct p as [|k r]; [done|].
    rewrite !prefixFrom_cons. cbn [children]. rewrite lookup_insert.
    case_decide as Hk.
    + subst k. rewrite IH, prefix_cons_decide.
      destruct (children node !! c); [done|]. cbn [default from_option id].
      rewrite prefixFrom_newNode. destruct r as [|k r]; [|done].
      rewrite !bool_decide_eq_true_2; [done | apply prefix_nil | done].
    + rewrite (bool_decide_eq_false_2 (k :: r `prefix_of` c :: rest)).
      * by rewrite orb_false_r.
      * intros H%prefix_cons_inv_1. done.
Qed.

Lemma insertFrom_nil_comm node chars :
  Trie.insertFrom (Trie.insertFrom node []) chars =
  Trie.insertFrom (Trie.insertFrom node chars) [].
Proof. destruct chars as [|c rest]; [done|]. by rewrite !insertFrom_cons. Qed.

Lemma insertFrom_comm node chars1 chars2 :
  Trie.insertFrom (Trie.insertFrom node chars1) chars2 =
  Trie.insertFrom (Trie.insertFrom node chars2) chars1.
Proof.
  revert node chars2. induction chars1 as [|a ra IH]; intros node chars2.
  - apply insertFrom_nil_comm.
  - destruct chars2 as [|b rb]; [symmetry; apply insertFrom_nil_comm|].
    rewrite !insertFrom_cons. cbn [children isEndOfWord]. f_equal.
    destruct (decide (a = b)) as [->|Hab].
    + rewrite !lookup_insert_eq, !insert_insert_eq. cbn [default from_option id].
      unfold id. by rewrite IH.
    + rewrite !lookup_insert_ne by done. by apply insert_insert_ne.
Qed.

(** ** Further properties of [delete] *)

(** A second pruning of the same path finds nothing to do. *)
Lemma prune_twice node keys :
  prune (prune node keys).2 keys = (false, (prune node keys).2).
Proof. apply prune_absent, prune_search_same. Qed.

(** Only prefixes of the pruned path can lose their node. *)
Lemma prune_prefix_other node keys p :
  ¬ p `prefix_of` keys →
  Trie.prefixFrom (prune node keys).2 p = Trie.prefixFrom node p.
Proof.
  revert node p. induction keys as [|k rest IH]; intros node p Hp.
  - destruct p as [|k' p]; [by destruct Hp; apply prefix_nil|].
    rewrite !prefixFrom_cons. simpl. by destruct (isEndOfWord node).
  - simpl. destruct (children node !! k) as [child|] eqn:Hk; [|done].
    destruct (prune child rest) as [b child'] eqn:Hpr.
    destruct p as [|k' p]; [by destruct Hp; apply prefix_nil|].
    rewrite !prefixFrom_cons.
    destruct (decide (k' = k)) as [->|Hkk].
    + assert (¬ p `prefix_of` rest) as Hr by (intros H; by apply Hp, prefix_cons).
      specialize (IH child p Hr). rewrite Hpr in IH. simpl in IH.
      rewrite Hk, <- IH. destruct b; simpl.
      * rewrite lookup_delete_eq.
        destruct (prune_true _ _ _ Hpr) as [Hc He].
        rewrite prefixFrom_leaf; [done..|].
        intros ->. apply Hr, prefix_nil.
      * by rewrite lookup_insert_eq.
    + destruct b; simpl.
      * by rewrite lookup_delete_ne, lookup_insert_ne.
      * by rewrite lookup_insert_ne.
Qed.

(** Pruning the path that [insertFrom] has just laid out in a fresh node
    unlinks all of it. *)
Lemma prune_insertFrom_newNode keys :
  prune (Trie.insertFrom newNode keys) keys = (true, newNode).
Proof.
  induction keys as [|k rest IH]; [done|].
  rewrite insertFrom_cons. simpl. rewrite lookup_insert_eq.
  rewrite lookup_empty. simpl. rewrite IH.
  by rewrite delete_insert_eq, delete_insert_eq, delete_empty.
Qed.

Lemma productive_inv node :
  productive node → isEndOfWord node = false → children node ≠ ∅.
Proof.
  intros (q & m & Hw & He) Hn Hc. destruct q as [|k q]; simpl in Hw.
  - injection Hw as <-. congruence.
  - by rewrite Hc, lookup_empty in Hw.
Qed.

Lemma unlink_signal_false node :
  productive node →
  bool_decide (size (children node) = 0) && negb (isEndOfWord node) = false.
Proof.
  intros Hp. destruct (isEndOfWord node) eqn:He; [by rewrite andb_false_r|].
  rewrite bool_decide_eq_false_2; [done|].
  rewrite map_size_empty_iff. by apply productive_inv.
Qed.

(** Below the root of a trie without dangling nodes, [insertFrom] followed
    by [prune] of a path that ended no word gives the node back. *)
Lemma prune_insertFrom_good node keys :
  good node → Trie.searchFrom node keys = false →
  prune (Trie.insertFrom node keys) keys = (false, node).
Proof.
  revert node. induction keys as [|k rest IH]; intros node Hg Hs.
  - simpl in *. f_equal.
    + apply bool_decide_eq_false_2. rewrite map_size_empty_iff.
      by apply productive_inv; [apply good_productive|].
    + by rewrite <- Hs, node_eta.
  - rewrite insertFrom_cons. rewrite searchFrom_cons in Hs. simpl.
    rewrite lookup_insert_eq.
    destruct (children node !! k) as [child|] eqn:Hk; simpl.
    + rewrite (IH child (good_child _ _ _ Hg Hk) Hs).
      by rewrite insert_insert_eq, insert_id, node_eta.
    + rewrite prune_insertFrom_newNode.
      rewrite !delete_insert_eq, delete_id by done.
      by rewrite unlink_signal_false, node_eta; [|apply good_productive].
Qed.

Lemma prune_insertFrom_root node keys :
  goodBelow node → Trie.searchFrom node keys = false →
  (prune (Trie.insertFrom node keys) keys).2 = node.
Proof.
  intros Hb Hs. destruct keys as [|k rest].
  - simpl in *. by rewrite <- Hs, node_eta.
  - rewrite insertFrom_cons. rewrite searchFrom_cons in Hs. simpl.
    rewrite lookup_insert_eq.
    destruct (children node !! k) as [child|] eqn:Hk; simpl.
    + rewrite (prune_insertFrom_good child rest (Hb _ _ Hk) Hs). simpl.
      by rewrite insert_insert_eq, insert_id, node_eta.
    + rewrite prune_insertFrom_newNode. simpl.
      by rewrite !delete_insert_eq, delete_id, node_eta.
Qed.

(** A node that [prune] reports for unlinking was exactly the path of the
    word laid out in a fresh node. *)
Lemma prune_true_was_chain node keys node' :
  prune node keys = (true, node') → Trie.insertFrom newNode keys = node.
Proof.
  revert node node'. induction keys as [|k rest IH]; intros node node'.
  - simpl. destruct (isEndOfWord node) eqn:He; [|done].
    intros [= Hs _]. apply bool_decide_eq_true, map_size_empty_inv in Hs.
    by rewrite <- (node_eta node), Hs, He.
  - rewrite insertFrom_cons. simpl.
    destruct (children node !! k) as [child|] eqn:Hk; [|done].
    destruct (prune child rest) as [[] child'] eqn:Hp; [|done].
    intros [= Hb _]. apply andb_true_iff in Hb as [Hs He].
    apply bool_decide_eq_true, map_size_empty_inv in Hs.
    apply negb_true_iff in He. rewrite delete_insert_eq in Hs.
    rewrite lookup_empty. simpl. rewrite (IH _ _ Hp).
    rewrite <- (node_eta node), He. f_equal.
    by rewrite <- Hs, insert_delete_id.
Qed.

(** Inserting again the path that [prune] has removed gives the node
    back. *)
Lemma insertFrom_prune node keys :
  Trie.searchFrom node keys = true →
  Trie.insertFrom (prune node keys).2 keys = node.
Proof.
  revert node. induction keys as [|k rest IH]; intros node Hs.
  - simpl in *. rewrite Hs. simpl. by rewrite <- Hs, node_eta.
  - rewrite searchFrom_cons in Hs. cbn [prune].
    destruct (children node !! k) as [child|] eqn:Hk; [|done].
    specialize (IH child Hs).
    destruct (prune child rest) as [[] child'] eqn:Hp; cbn [snd] in *;
      rewrite insertFrom_cons; cbn [children isEndOfWord].
    + rewrite delete_insert_eq, lookup_delete_eq. cbn [default from_option id].
      rewrite (prune_true_was_chain _ _ _ Hp).
      by rewrite insert_delete_id, node_eta.
    + rewrite lookup_insert_eq. cbn [default from_option id]. unfold id.
      by rewrite IH, insert_insert_eq, insert_id, node_eta.
Qed.

(** ** Reachable states without words, and words below a prefix *)

Lemma searchFrom_of_path node p m :
  canonical node → walk node p = Some m →
  Trie.searchFrom node (codePoints (concat p)) = isEndOfWord m.
Proof. intros Hc Hw. by rewrite (Hc _ _ Hw), searchFrom_walk, Hw. Qed.

Lemma no_members_empty tr :
  goodBelow (Trie.root tr) → canonical (Trie.root tr) →
  (∀ v, Trie.searchWord tr v = false) → tr = Trie.new.
Proof.
  intros Hg Hc Hno. destruct tr as [[kids flag]]. simpl in *.
  assert (flag = false) as -> by apply (Hno []).
  destruct (decide (kids = ∅)) as [->|Hne]; [done|].
  destruct (map_choose _ Hne) as (k & c & Hk).
  destruct (good_productive _ (Hg _ _ Hk)) as (q & m & Hw & He).
  assert (walk (mkNode kids false) (k :: q) = Some m) as Hp
    by (simpl; by rewrite Hk).
  specialize (Hno (concat (k :: q))). unfold Trie.searchWord in Hno.
  cbn [Trie.root] in Hno.
  rewrite (searchFrom_of_path _ _ _ Hc Hp) in Hno. congruence.
Qed.

Lemma deleteAll_reachable tr ws :
  reachable tr → reachable (Visualizer.deleteAll tr ws).
Proof.
  revert tr. induction ws as [|w ws IH]; intros tr Hr; [done|].
  apply IH. by apply reachable_delete.
Qed.

Lemma delete_search tr w v :
  Trie.searchWord (Trie.delete tr w).2 v =
  if decide (v = w ∧ pairFree w) then false else Trie.searchWord tr v.
Proof.
  case_decide as H.
  - destruct H as [-> Hw]. by apply delete_search_same.
  - destruct (decide (v = w)) as [->|Hne].
    + apply delete_search_pair. tauto.
    + by apply delete_search_other.
Qed.

Lemma deleteAll_search tr ws v :
  Trie.searchWord (Visualizer.deleteAll tr ws) v =
  if decide (v ∈ ws ∧ pairFree v) then false else Trie.searchWord tr v.
Proof.
  revert tr. induction ws as [|w ws IH]; intros tr.
  - rewrite decide_False; [done|]. intros [H _]. by apply not_elem_of_nil in H.
  - change (Visualizer.deleteAll tr (w :: ws))
      with (Visualizer.deleteAll (Trie.delete tr w).2 ws).
    rewrite IH, delete_search.
    destruct (decide (v ∈ ws ∧ pairFree v)) as [[Hin Hv]|Hn1].
    + rewrite decide_True; [done|]. split; [by right|done].
    + destruct (decide (v = w ∧ pairFree w)) as [[-> Hw]|Hn2].
      * rewrite decide_True; [done|]. split; [by left|done].
      * rewrite decide_False; [done|].
        intros [[->|Hin]%elem_of_cons Hv]; tauto.
Qed.

Lemma insert_search_other tr w v :
  v ≠ w → Trie.searchWord (Trie.insert tr w) v = Trie.searchWord tr v.
Proof.
  intros Hne. apply insertFrom_search_other. intros H. by apply codePoints_inj in H.
Qed.

Lemma pathFrom_length cur chars :
  length (Visualizer.pathFrom cur chars) = length chars.
Proof.
  revert cur. induction chars as [|c rest IH]; intros cur; [done|].
  simpl. by rewrite IH.
Qed.

Lemma pathFrom_longer cur chars id :
  id ∈ Visualizer.pathFrom cur chars → length cur < length id.
Proof.
  revert cur. induction chars as [|c rest IH]; intros cur.
  - by intros H%not_elem_of_nil.
  - simpl. intros [->|Hin]%elem_of_cons.
    + rewrite length_app. simpl. lia.
    + apply IH in Hin. rewrite length_app in Hin. simpl in Hin. lia.
Qed.

Lemma pathFrom_NoDup cur chars : NoDup (Visualizer.pathFrom cur chars).
Proof.
  revert cur. induction chars as [|c rest IH]; intros cur; simpl.
  - apply NoDup_nil_2.
  - apply NoDup_cons. split; [|apply IH].
    intros Hin%pathFrom_longer. lia.
Qed.

Lemma reachable_gas : reachable (Trie.insert Trie.new (lit "gas")).
Proof. apply reachable_insert, reachable_new. Defined.

Lemma gasGarlic_members v :
  Trie.searchWord gasGarlic v = true → v ∈ [lit "gas"; lit "garlic"].
Proof.
  unfold gasGarlic. intros Hs.
  destruct (decide (v = lit "garlic")) as [->|H1]; [set_solver|].
  rewrite insert_search_other in Hs by done.
  destruct (decide (v = lit "gas")) as [->|H2]; [set_solver|].
  rewrite insert_search_other in Hs by done.
  unfold Trie.searchWord in Hs. by rewrite searchFrom_leaf in Hs.
Defined.

(** ** Properties beyond the claims *)

(** X1.  A word that [searchWord] finds is also found by [startsWith]. *)
Theorem member_is_prefix tr w :
  Trie.searchWord tr w = true → Trie.startsWith tr w = true.
Proof.
  unfold Trie.searchWord, Trie.startsWith.
  rewrite searchFrom_walk, prefixFrom_walk.
  destruct (walk (Trie.root tr) (codePoints w)) as [m|]; [|done].
  intros _. apply bool_decide_eq_true_2. by eexists.
Qed.

Lemma member_is_prefix_witness : Trie.startsWith gasGarlic (lit "gas") = true.
Proof. apply (member_is_prefix gasGarlic (lit "gas")). vm_compute; reflexivity. Defined.

(** X2.  [startsWith] is closed under prefixes: when it accepts a word it
    accepts every prefix of that word, taken in whole characters. *)
Theorem startsWith_prefix_closed tr w p :
  Trie.startsWith tr w = true → charPrefix p w → Trie.startsWith tr p = true.
Proof.
  unfold Trie.startsWith. intros Hw [q Hq]. rewrite Hq in Hw.
  rewrite prefixFrom_walk in *. apply bool_decide_eq_true in Hw.
  apply bool_decide_eq_true_2. rewrite walk_app in Hw.
  destruct (walk (Trie.root tr) (codePoints p)); [by eexists | by destruct Hw].
Qed.

Lemma startsWith_prefix_closed_witness :
  Trie.startsWith gasGarlic (lit "gar") = true.
Proof.
  apply (startsWith_prefix_closed gasGarlic (lit "garlic") (lit "gar")).
  - vm_compute; reflexivity.
  - exists [lit "l"; lit "i"; lit "c"]. vm_compute; reflexivity.
Defined.

(** X3.  The empty prefix is accepted by every trie; a new trie holds no
    word and accepts no other prefix than the empty one. *)
Theorem new_trie_queries tr w :
  Trie.startsWith tr [] = true ∧
  Trie.searchWord Trie.new w = false ∧
  Trie.startsWith Trie.new w = bool_decide (w = []).
Proof.
  split; [done|]. split; [by apply searchFrom_leaf|].
  unfold Trie.startsWith. simpl. rewrite prefixFrom_newNode.
  apply bool_decide_ext. split; [apply codePoints_nil | by intros ->].
Qed.

(** X4.  [insert w] changes the membership of no other word: it neither
    adds nor removes any word but [w]. *)
Theorem insert_keeps_other_words tr w v :
  v ≠ w → Trie.searchWord (Trie.insert tr w) v = Trie.searchWord tr v.
Proof.
  intros Hne. unfold Trie.searchWord, Trie.insert. simpl.
  apply insertFrom_search_other. intros H. by apply codePoints_inj in H.
Qed.

Lemma insert_keeps_other_words_witness :
  Trie.searchWord (Trie.insert Trie.new (lit "garlic")) (lit "gar") =
  Trie.searchWord Trie.new (lit "gar").
Proof. apply (insert_keeps_other_words Trie.new (lit "garlic") (lit "gar")). done. Defined.

(** X5.  After [insert w] the prefixes that [startsWith] accepts are those
    it accepted before and the prefixes of [w], taken in whole characters,
    and no others. *)
Theorem insert_startsWith_exact tr w p :
  Trie.startsWith (Trie.insert tr w) p =
  Trie.startsWith tr p || bool_decide (charPrefix p w).
Proof. apply insertFrom_prefix_exact. Qed.

(** X6.  The order of two insertions does not matter: both orders give
    the same trie. *)
Theorem insert_comm tr w1 w2 :
  Trie.insert (Trie.insert tr w1) w2 = Trie.insert (Trie.insert tr w2) w1.
Proof. unfold Trie.insert. simpl. by rewrite insertFrom_comm. Qed.

(** X7.  Membership after [delete w], in every state: a word without
    surrogate pairs is gone after its own deletion, and in every other
    case membership is what it was. *)
Theorem delete_membership tr w v :
  Trie.searchWord (Trie.delete tr w).2 v =
  if decide (v = w ∧ pairFree w) then false else Trie.searchWord tr v.
Proof.
  case_decide as H.
  - destruct H as [-> Hw]. by apply delete_search_same.
  - destruct (decide (v = w)) as [->|Hne].
    + apply delete_search_pair. tauto.
    + by apply delete_search_other.
Qed.

(** X8.  [delete] creates nothing: a prefix that [startsWith] accepts
    after the call was accepted before. *)
Theorem delete_adds_no_prefix tr w p :
  Trie.startsWith (Trie.delete tr w).2 p = true → Trie.startsWith tr p = true.
Proof.
  rewrite delete_prune. unfold Trie.startsWith. simpl.
  rewrite !prefixFrom_walk. intros [m Hm]%bool_decide_eq_true.
  apply bool_decide_eq_true_2. by eapply prune_walk.
Qed.

Lemma delete_adds_no_prefix_witness : Trie.startsWith gasGarlic (lit "ga") = true.
Proof.
  apply (delete_adds_no_prefix gasGarlic (lit "garlic") (lit "ga")).
  vm_compute; reflexivity.
Defined.

(** X9.  [delete w] removes nodes only on the path that it walks: a prefix
    whose characters are not an initial part of the code units of [w] is
    accepted by [startsWith] after the call exactly when it was before. *)
Theorem delete_startsWith_frame tr w p :
  ¬ codePoints p `prefix_of` codeUnits w →
  Trie.startsWith (Trie.delete tr w).2 p = Trie.startsWith tr p.
Proof.
  intros Hp. rewrite delete_prune. unfold Trie.startsWith. simpl.
  by apply prune_prefix_other.
Qed.

Lemma delete_startsWith_frame_witness :
  Trie.startsWith (Trie.delete gasGarlic (lit "garlic")).2 (lit "gas") =
  Trie.startsWith gasGarlic (lit "gas").
Proof.
  apply (delete_startsWith_frame gasGarlic (lit "garlic") (lit "gas")).
  intros [k Hk]. vm_compute in Hk. discriminate Hk.
Defined.

(** X10.  Deleting the same word a second time returns false and changes
    nothing, in every state. *)
Theorem delete_twice tr w :
  Trie.delete (Trie.delete tr w).2 w = (false, (Trie.delete tr w).2).
Proof.
  rewrite (delete_prune tr w). simpl. rewrite delete_prune. simpl.
  by rewrite prune_twice.
Qed.

(** X11.  In a reachable state, inserting a word without surrogate pairs
    that was not a member and deleting it again gives back the trie as it
    was: every node that [insert] created is pruned and nothing else. *)
Theorem insert_delete_restores tr w :
  reachable tr → pairFree w → Trie.searchWord tr w = false →
  (Trie.delete (Trie.insert tr w) w).2 = tr.
Proof.
  intros Hr Hw Hs. rewrite delete_prune. unfold Trie.insert. simpl.
  rewrite <- Hw, prune_insertFrom_root; [by destruct tr | | done].
  by apply reachable_goodBelow.
Qed.

Lemma insert_delete_restores_witness :
  (Trie.delete (Trie.insert (Trie.insert Trie.new (lit "gas")) (lit "garlic"))
     (lit "garlic")).2 = Trie.insert Trie.new (lit "gas").
Proof.
  apply (insert_delete_restores _ (lit "garlic") reachable_gas);
    vm_compute; reflexivity.
Defined.

(** X12.  In every state, deleting a member word without surrogate pairs
    and inserting it again gives back a trie with the same nodes, the same
    keys under each node and the same flags.  The order in which a [Map]
    lists its keys is not part of the model; in the source a key that was
    pruned and is created again moves to the end of its parent's map. *)
Theorem delete_insert_restores tr w :
  pairFree w → Trie.searchWord tr w = true →
  Trie.insert (Trie.delete tr w).2 w = tr.
Proof.
  intros Hw Hs. rewrite delete_prune. unfold Trie.insert. simpl.
  unfold Trie.searchWord in Hs. rewrite Hw in *.
  rewrite insertFrom_prune by done. by destruct tr.
Qed.

Lemma delete_insert_restores_witness :
  Trie.insert (Trie.delete gasGarlic (lit "garlic")).2 (lit "garlic") = gasGarlic.
Proof.
  apply (delete_insert_restores gasGarlic (lit "garlic")); vm_compute; reflexivity.
Defined.

(** X13.  In every reachable state the keys along any path are the
    characters of the word they spell: splitting the concatenation of the
    keys by code point gives the keys back. *)
Theorem reachable_keys_canonical tr p m :
  reachable tr → walk (Trie.getRoot tr) p = Some m →
  codePoints (concat p) = p.
Proof. intros Hr Hw. by eapply (reachable_canonical tr Hr). Qed.

Lemma reachable_keys_canonical_witness :
  match walk (Trie.getRoot gasGarlic) [lit "g"; lit "a"] with
  | Some m => codePoints (concat [lit "g"; lit "a"]) = [lit "g"; lit "a"]
  | None => True
  end.
Proof.
  destruct (walk (Trie.getRoot gasGarlic) [lit "g"; lit "a"]) as [m|] eqn:Hw;
    [|exact I].
  exact (reachable_keys_canonical gasGarlic _ m reachable_gasGarlic Hw).
Defined.

Lemma reachable_prefix_member tr p :
  reachable tr → p ≠ [] → Trie.startsWith tr p = true →
  ∃ w, charPrefix p w ∧ Trie.searchWord tr w = true.
Proof.
  intros Hr Hne Hp. unfold Trie.startsWith in Hp.
  rewrite prefixFrom_walk in Hp. apply bool_decide_eq_true in Hp as [m Hm].
  assert (productive m) as (q & m' & Hq & He).
  { destruct (codePoints p) as [|k r] eqn:Hcp; [by apply codePoints_nil in Hcp|].
    simpl in Hm. destruct (children (Trie.root tr) !! k) as [c|] eqn:Hk; [|done].
    by apply (reachable_goodBelow tr Hr k c Hk r). }
  assert (walk (Trie.root tr) (codePoints p ++ q) = Some m') as Hw
    by (by rewrite walk_app, Hm).
  pose proof (reachable_canonical tr Hr _ _ Hw) as Hc.
  exists (concat (codePoints p ++ q)). split.
  - exists q. done.
  - unfold Trie.searchWord. by rewrite Hc, searchFrom_walk, Hw.
Qed.

(** X14.  In every reachable state a non-empty prefix that [startsWith]
    accepts is a prefix, in whole characters, of some word that
    [searchWord] finds. *)
Theorem prefix_has_member tr p :
  reachable tr → p ≠ [] → Trie.startsWith tr p = true →
  ∃ w, charPrefix p w ∧ Trie.searchWord tr w = true.
Proof. apply reachable_prefix_member. Qed.

Lemma prefix_has_member_witness :
  ∃ w, charPrefix (lit "gar") w ∧ Trie.searchWord gasGarlic w = true.
Proof.
  apply (prefix_has_member gasGarlic (lit "gar") reachable_gasGarlic).
  - discriminate.
  - vm_compute; reflexivity.
Defined.

(** X15.  In every reachable state [delete w] returns true exactly when
    [w] holds no surrogate pair and was the only word of the trie. *)
Theorem delete_true_iff_only_word tr w :
  reachable tr →
  ((Trie.delete tr w).1 = true ↔
   pairFree w ∧ Trie.searchWord tr w = true ∧
   ∀ v, v ≠ w → Trie.searchWord tr v = false).
Proof.
  intros Hr. rewrite delete_result. split.
  - intros (Hs & Hc & He).
    assert (pairFree w) as Hw.
    { rewrite searchFrom_walk in Hs.
      destruct (walk (Trie.root tr) (codeUnits w)) as [m|] eqn:Hm; [|done].
      apply (reachable_canonical tr Hr) in Hm. by rewrite concat_codeUnits in Hm. }
    split; [done|]. split; [unfold Trie.searchWord; by rewrite Hw|].
    intros v Hv. rewrite <- (delete_search_other tr w v Hv).
    by apply searchFrom_leaf.
  - intros (Hw & Hs & Hothers).
    assert ((Trie.delete tr w).2 = Trie.new) as ->.
    { apply no_members_empty.
      - apply reachable_goodBelow. by apply reachable_delete.
      - apply reachable_canonical. by apply reachable_delete.
      - intros v. rewrite delete_search. case_decide as Hv; [done|].
        apply Hothers. intros ->. tauto. }
    split; [|done]. unfold Trie.searchWord in Hs. by rewrite Hw in Hs.
Qed.

Lemma delete_true_iff_only_word_witness :
  (Trie.delete (Trie.insert Trie.new (lit "gas")) (lit "gas")).1 = true ↔
  pairFree (lit "gas") ∧
  Trie.searchWord (Trie.insert Trie.new (lit "gas")) (lit "gas") = true ∧
  ∀ v, v ≠ lit "gas" →
       Trie.searchWord (Trie.insert Trie.new (lit "gas")) v = false.
Proof. exact (delete_true_iff_only_word _ (lit "gas") reachable_gas). Defined.

(** X16.  After [handleReset] a word is in the trie exactly when it was
    there before and the reset did not remove it: the words of the word
    set that hold no surrogate pair are removed, every other word keeps
    its membership. *)
Theorem handleReset_membership s v :
  Trie.searchWord (Visualizer.trie (Visualizer.handleReset s)) v =
  if decide (v ∈ Visualizer.completeWords s ∧ pairFree v) then false
  else Trie.searchWord (Visualizer.trie s) v.
Proof. apply deleteAll_search. Qed.

(** X17.  When the trie is in a reachable state, the word set lists every
    word of the trie and none of them holds a surrogate pair,
    [handleReset] leaves the trie as a new one, without any node below the
    root, and the word set empty. *)
Theorem handleReset_empties s :
  reachable (Visualizer.trie s) →
  Forall pairFree (Visualizer.completeWords s) →
  (∀ v, Trie.searchWord (Visualizer.trie s) v = true →
        v ∈ Visualizer.completeWords s) →
  Visualizer.trie (Visualizer.handleReset s) = Trie.new ∧
  Visualizer.completeWords (Visualizer.handleReset s) = [].
Proof.
  intros Hr Hpf Hall. split; [|done]. simpl. apply no_members_empty.
  - by apply reachable_goodBelow, deleteAll_reachable.
  - by apply reachable_canonical, deleteAll_reachable.
  - intros v. rewrite deleteAll_search. case_decide as Hv; [done|].
    destruct (Trie.searchWord (Visualizer.trie s) v) eqn:Hs; [|done].
    destruct Hv. split; [by apply Hall|].
    rewrite Forall_forall in Hpf. by apply Hpf, Hall.
Qed.

Lemma handleReset_empties_witness :
  Visualizer.trie (Visualizer.handleReset gasGarlicState) = Trie.new ∧
  Visualizer.completeWords (Visualizer.handleReset gasGarlicState) = [].
Proof.
  apply (handleReset_empties gasGarlicState).
  - exact reachable_gasGarlic.
  - apply Forall_cons. split; [vm_compute; reflexivity|].
    apply Forall_cons. split; [vm_compute; reflexivity | apply Forall_nil_2].
  - exact gasGarlic_members.
Defined.

(** X18.  [buildPathForward] returns one identifier for the root and one
    for each character of the lower-cased word, and no identifier occurs
    twice. *)
Theorem buildPathForward_ids (toLowerCase : jsstring → jsstring) word :
  length (Visualizer.buildPathForward toLowerCase word) =
    S (length (codePoints (toLowerCase word))) ∧
  NoDup (Visualizer.buildPathForward toLowerCase word).
Proof.
  unfold Visualizer.buildPathForward. split.
  - simpl. by rewrite pathFrom_length.
  - apply NoDup_cons. split; [|apply pathFrom_NoDup].
    intros Hin%pathFrom_longer. lia.
Qed.

(** ** A reachable trie is determined by its words *)

Lemma height_child node k c :
  children node !! k = Some c → height c < height node.
Proof.
  destruct node as [kids e]. simpl. intros Hk.
  induction kids as [|k' c' kids Hk' Hfold IH] using map_first_key_ind.
  - by rewrite lookup_empty in Hk.
  - rewrite map_fold_insert_first_key by done.
    destruct (decide (k' = k)) as [->|Hne].
    + rewrite lookup_insert_eq in Hk. injection Hk as ->. lia.
    + rewrite lookup_insert_ne in Hk by done. specialize (IH Hk). lia.
Qed.

Lemma good_goodBelow node : good node → goodBelow node.
Proof. intros Hg k c Hk. by eapply good_child. Qed.

Lemma good_search_some node k c :
  children node !! k = Some c → good c →
  ∃ q, Trie.searchFrom node (k :: q) = true.
Proof.
  intros Hk Hg. destruct (good_productive _ Hg) as (q & m & Hw & He).
  exists q. by rewrite searchFrom_cons, Hk, searchFrom_walk, Hw.
Qed.

Lemma node_ext h node1 node2 :
  height node1 < h → goodBelow node1 → goodBelow node2 →
  (∀ p, Trie.searchFrom node1 p = Trie.searchFrom node2 p) →
  node1 = node2.
Proof.
  revert node1 node2. induction h as [|h IH]; intros node1 node2 Hh Hg1 Hg2 Heq; [lia|].
  rewrite <- (node_eta node1), <- (node_eta node2).
  f_equal; [|apply (Heq [])].
  apply map_eq. intros k. pose proof (λ q, Heq (k :: q)) as Hk.
  setoid_rewrite searchFrom_cons in Hk.
  destruct (children node1 !! k) as [c1|] eqn:H1,
           (children node2 !! k) as [c2|] eqn:H2; [| | |done].
  - f_equal. apply IH.
    + apply height_child in H1. lia.
    + by apply good_goodBelow, (Hg1 k).
    + by apply good_goodBelow, (Hg2 k).
    + exact Hk.
  - destruct (good_search_some _ _ _ H1 (Hg1 _ _ H1)) as [q Hq].
    rewrite searchFrom_cons, H1, Hk in Hq. done.
  - destruct (good_search_some _ _ _ H2 (Hg2 _ _ H2)) as [q Hq].
    rewrite searchFrom_cons, H2, <- Hk in Hq. done.
Qed.

Lemma canonical_search_path node p :
  canonical node → codePoints (concat p) ≠ p → Trie.searchFrom node p = false.
Proof.
  intros Hc Hp. rewrite searchFrom_walk.
  destruct (walk node p) as [m|] eqn:Hw; [|done]. by apply Hc in Hw.
Qed.

(** X19.  Two reachable states in which [searchWord] finds the same words
    are the same trie, with the same nodes, keys and flags: the state
    depends on the set of words and not on the calls that built it. *)
Theorem reachable_same_words_same_trie tr1 tr2 :
  reachable tr1 → reachable tr2 →
  (∀ w, Trie.searchWord tr1 w = Trie.searchWord tr2 w) →
  tr1 = tr2.
Proof.
  intros Hr1 Hr2 Heq. destruct tr1 as [r1], tr2 as [r2]. f_equal.
  apply (node_ext (S (height r1))); [lia|by apply (reachable_goodBelow _ Hr1)
    |by apply (reachable_goodBelow _ Hr2)|].
  intros p. destruct (decide (codePoints (concat p) = p)) as [Hp|Hp].
  - specialize (Heq (concat p)). unfold Trie.searchWord in Heq.
    by rewrite Hp in Heq.
  - rewrite !canonical_search_path; try done.
    + apply (reachable_canonical _ Hr2).
    + apply (reachable_canonical _ Hr1).
Qed.

Lemma reachable_same_words_same_trie_witness :
  (Trie.delete (Trie.insert gasGarlic (lit "go")) (lit "go")).2 = gasGarlic.
Proof.
  apply reachable_same_words_same_trie.
  - apply reachable_delete, reachable_insert, reachable_gasGarlic.
  - exact reachable_gasGarlic.
  - intros w. rewrite delete_search. case_decide as Hw.
    + destruct Hw as [-> _]. vm_compute; reflexivity.
    + destruct (decide (w = lit "go")) as [->|Hne].
      * destruct Hw. split; [done | vm_compute; reflexivity].
      * by apply insert_search_other.
Defined.

(** X20.  In every reachable state, a non-empty prefix that [startsWith]
    still accepts after [delete w], for a word [w] without surrogate
    pairs, is a prefix of another word of the trie: the nodes that only
    [w] needed are gone. *)
Theorem delete_prunes_unused_prefix tr w p :
  reachable tr → pairFree w → p ≠ [] →
  Trie.startsWith (Trie.delete tr w).2 p = true →
  ∃ v, v ≠ w ∧ charPrefix p v ∧ Trie.searchWord tr v = true.
Proof.
  intros Hr Hw Hne Hp.
  destruct (reachable_prefix_member _ p (reachable_delete tr w Hr) Hne Hp)
    as (v & Hpv & Hv).
  rewrite delete_search in Hv. case_decide as Hd; [done|].
  exists v. split; [|done]. intros ->. tauto.
Qed.

Lemma delete_prunes_unused_prefix_witness :
  ∃ v, v ≠ lit "garlic" ∧ charPrefix (lit "ga") v ∧
       Trie.searchWord gasGarlic v = true.
Proof.
  apply (delete_prunes_unused_prefix gasGarlic (lit "garlic") (lit "ga")
           reachable_gasGarlic).
  - vm_compute; reflexivity.
  - discriminate.
  - vm_compute; reflexivity.
Defined.
